(** * The request-receive pipeline of net::tcp (src/tcp/tcp_connection.cpp)

    A shallow embedding of [recv_request] and of the functions it is built
    from: [detailed_error], [check_parse_done], [parse_request], [finished],
    [initialize_state], [update_state] and [check_recv_size].

    The stdexec combinators the pipeline is written with are embedded as
    functions on completions (value / error / stopped) that thread the
    [recv_state] the C++ lambdas capture by reference. *)

From stdpp Require Import base list numbers.
From Stdlib Require Import Strings.Byte.

Local Open Scope Z_scope.

(** ** Machine integers *)

(** [std::size_t] arithmetic is modulo 2^64. *)
Definition wrap_u64 (z : Z) : Z := z mod 2 ^ 64.

(** The representation of [std::chrono::seconds] and of the tick count of a
    [system_clock] time point is a signed 64-bit integer.  Overflow of signed
    arithmetic is undefined in C++; the model gives the two's complement
    result, and the statements below say where the values are in range. *)
Definition wrap_i64 (z : Z) : Z := (z + 2 ^ 63) mod 2 ^ 64 - 2 ^ 63.

Definition in_i64 (z : Z) : Prop := - 2 ^ 63 <= z < 2 ^ 63.
Definition in_u64 (z : Z) : Prop := 0 <= z < 2 ^ 64.

(** [std::chrono::seconds::max()], the value the code calls
    [unlimited_timeout] (t.cpp: [unlimited_time = std::chrono::seconds::max()]). *)
Definition unlimited_timeout : Z := 2 ^ 63 - 1.

(** ** http1: error codes and parser states *)

Module http1.

(** The enumerators of [http1::Error] that the sources name. *)
Inductive Error : Type :=
| kSuccess
| kNeedMore
| kEndOfStream
| kRecvTimeout
| kRecvRequestTimeoutWithNothing
| kRecvRequestLineTimeout
| kRecvRequestHeadersTimeout
| kRecvRequestBodyTimeout
| kInvalidResponse.

Definition Error_eqb (a b : Error) : bool :=
  match a, b with
  | kSuccess, kSuccess
  | kNeedMore, kNeedMore
  | kEndOfStream, kEndOfStream
  | kRecvTimeout, kRecvTimeout
  | kRecvRequestTimeoutWithNothing, kRecvRequestTimeoutWithNothing
  | kRecvRequestLineTimeout, kRecvRequestLineTimeout
  | kRecvRequestHeadersTimeout, kRecvRequestHeadersTimeout
  | kRecvRequestBodyTimeout, kRecvRequestBodyTimeout
  | kInvalidResponse, kInvalidResponse => true
  | _, _ => false
  end.

(** [http1::RequestParser::MessageState]. *)
Inductive MessageState : Type :=
| kNothingYet
| kStartLine
| kExpectingNewline
| kHeader
| kBody
| kCompleted.

End http1.
Import http1.

(** A [std::error_code]: default-constructed ([ec{}], no error), made from an
    [http1::Error] enumerator, or a code of another category with its integer
    value (what the I/O layer or the parser may report besides). *)
Inductive error_code : Type :=
| ec_default
| ec_http1 (e : Error)
| ec_other (value : Z).

(** [explicit operator bool]: the code's value is not zero.  [kSuccess] is
    the enumerator with value zero. *)
Definition ec_bool (ec : error_code) : bool :=
  match ec with
  | ec_default => false
  | ec_http1 e => negb (Error_eqb e kSuccess)
  | ec_other v => negb (v =? 0)
  end.

(** [ec == e] for an enumerator [e] of [http1::Error]. *)
Definition ec_is (ec : error_code) (e : Error) : bool :=
  match ec with
  | ec_http1 e' => Error_eqb e' e
  | _ => false
  end.

(** ** tcp_connection.cpp, lines 47-67 *)

(** Get detailed error enum by message parser state. *)
Definition detailed_error (state : MessageState) : Error :=
  match state with
  | kNothingYet => kRecvRequestTimeoutWithNothing
  | kStartLine
  | kExpectingNewline => kRecvRequestLineTimeout
  | kHeader => kRecvRequestHeadersTimeout
  | kBody => kRecvRequestBodyTimeout
  | kCompleted => kSuccess
  end.

(** [return ec && ec != http1::Error::kNeedMore;] *)
Definition check_parse_done (ec : error_code) : bool :=
  ec_bool ec && negb (ec_is ec kNeedMore).

(** ** Senders

    A sender of the pipeline completes in one of three ways; the C++ lambdas
    capture the state by reference, so a sender is a function of the state
    that returns its completion and the state it leaves. *)

Inductive completion (A : Type) : Type :=
| set_value (a : A)
| set_error (e : error_code)
| set_stopped.
Arguments set_value {A} a.
Arguments set_error {A} e.
Arguments set_stopped {A}.

Definition sender (S A : Type) : Type := S -> completion A * S.

Definition just {S A : Type} (a : A) : sender S A := fun s => (set_value a, s).

(** [ex::just_error(e)] with [e] an [http1::Error] enumerator or an error code. *)
Definition just_error {S A : Type} (e : error_code) : sender S A :=
  fun s => (set_error e, s).

(** [ex::let_value(f)]: continue with [f] on a value; errors and stopped pass. *)
Definition let_value {S A B : Type} (f : A -> sender S B) (snd : sender S A)
  : sender S B :=
  fun s =>
    match snd s with
    | (set_value a, s') => f a s'
    | (set_error e, s') => (set_error e, s')
    | (set_stopped, s') => (set_stopped, s')
    end.

(** [ex::let_stopped(f)]: continue with [f] on stopped; values and errors pass. *)
Definition let_stopped {S A : Type} (f : sender S A) (snd : sender S A)
  : sender S A :=
  fun s =>
    match snd s with
    | (set_stopped, s') => f s'
    | r => r
    end.

Notation "s |> f" := (f s) (at level 71, left associativity, only parsing).

(** [ex::if_then_else(recv_size != 0, just(recv_size), just_error(kEndOfStream))]
    (lines 111-114). *)
Definition check_recv_size {S : Type} (recv_size : Z) : sender S Z :=
  if negb (recv_size =? 0) then just recv_size
  else just_error (ec_http1 kEndOfStream).

(** ** Buffers *)

(** A [std::span] into the buffer: where it starts and how many bytes it has. *)
Record span : Type := { offset : nat; count : nat }.

(** [::memcpy(dst, src, n)] inside one buffer, as the byte-by-byte forward
    copy: the regions may overlap here, with [dst] before [src].  The model
    is that of the code as long as the copy stays inside the buffer,
    [src + n <= length buf]; a copy that leaves the buffer has no defined
    behaviour in C++ (the list operations drop what falls outside), and the
    statements about the bytes a copy leaves assume that it stays inside. *)
Fixpoint memcpy (buf : list byte) (dst src : nat) (n : nat) : list byte :=
  match n with
  | O => buf
  | S n' =>
      let buf' := match buf !! src with
                  | Some b => <[dst := b]> buf
                  | None => buf
                  end in
      memcpy buf' (S dst) (S src) n'
  end.


(** ** The receive state *)

(** [recv_option]: the two configured durations, in seconds;
    [unlimited_timeout] stands for "no bound". *)
Record recv_option : Type := {
  keepalive_timeout : Z;
  total_timeout : Z;
}.

(** [recv_metric]: [time.first], [time.last] (time points of the system
    clock, as tick counts since the epoch), [time.elapsed] (seconds) and
    [size.total]. *)
Record recv_metric : Type := {
  time_first : Z;
  time_last : Z;
  time_elapsed : Z;
  size_total : Z;
}.

(** The parser interface the pipeline uses.  http1/http_message_parser.h is
    not among the sources, so the parser is a parameter: [Parse] is given the
    text to parse and returns the number of bytes it consumed and the error
    code it leaves in [ec] ([ec_default] when it sets none); it updates the
    parser and the request the parser fills.  [State] is the parser's
    [MessageState]. *)
Class MessageParser (P R : Type) : Type := {
  Parse : P -> R -> list byte -> P * R * Z * error_code;
  State : P -> MessageState;
}.

Section Pipeline.

Context {P R : Type} `{!MessageParser P R}.

(** The number of clock ticks in a second ([system_clock::period]). *)
Variable ticks_per_second : Z.

(** [CopyArray], a helper of the repository that is not among the sources:
    it is handed the buffer, and nothing else, and returns the text. *)
Variable CopyArray : list byte -> list byte.

(** [recv_state] (declared in tcp_connection.h, which is not among the
    sources), by the fields the functions below use.  [unparsed_size] is
    compared with the [std::size_t] the parser returns and is taken to be a
    [std::size_t] too; [remaining_time] is a [std::chrono::seconds]. *)
Record recv_state : Type := {
  buffer : list byte;
  unparsed_size : Z;
  parser : P;
  request : R;
  metric : recv_metric;
  remaining_time : Z;
}.

Definition set_remaining_time (state : recv_state) (t : Z) : recv_state :=
  {| buffer := buffer state; unparsed_size := unparsed_size state;
     parser := parser state; request := request state;
     metric := metric state; remaining_time := t |}.

(** *** initialize_state (lines 91-97) *)
Definition initialize_state (state : recv_state) (opt : recv_option) : recv_state :=
  if negb (keepalive_timeout opt =? unlimited_timeout)
  then set_remaining_time state (keepalive_timeout opt)
  else set_remaining_time state (total_timeout opt).

(** *** update_state (lines 99-109) *)

(** [std::chrono::duration_cast<std::chrono::seconds>] of a tick count:
    integer division that truncates toward zero. *)
Definition duration_cast_seconds (ticks : Z) : Z := Z.quot ticks ticks_per_second.

Definition update_state (start stop : Z) (recv_size : Z) (state : recv_state)
  : recv_state :=
  let elapsed := duration_cast_seconds (wrap_i64 (start - stop)) in
  let m := metric state in
  let first := if time_first m =? 0 then start else time_first m in
  {| buffer := buffer state;
     unparsed_size := wrap_u64 (unparsed_size state + recv_size);
     parser := parser state;
     request := request state;
     metric := {| time_first := first;
                  time_last := stop;
                  time_elapsed := wrap_i64 (time_elapsed m + elapsed);
                  size_total := wrap_u64 (size_total m + recv_size) |};
     remaining_time := wrap_i64 (remaining_time state - elapsed) |}.

(** *** parse_request (lines 69-82) *)

Definition parse_request : sender recv_state bool := fun state =>
  let ss := CopyArray (buffer state) in
  let '(parser', request', parsed_size, ec) :=
    Parse (parser state) (request state) ss in
  let state' :=
    if ec_is ec kNeedMore && (parsed_size <? unparsed_size state) then
      let unparsed := wrap_u64 (unparsed_size state - parsed_size) in
      {| buffer := memcpy (buffer state) 0 (Z.to_nat parsed_size) (Z.to_nat unparsed);
         unparsed_size := unparsed;
         parser := parser'; request := request';
         metric := metric state; remaining_time := remaining_time state |}
    else
      {| buffer := buffer state; unparsed_size := unparsed_size state;
         parser := parser'; request := request';
         metric := metric state; remaining_time := remaining_time state |} in
  (set_value (check_parse_done ec), state').

(** *** finished (lines 84-89) *)

(** [finished] is handed the state as an rvalue: line 87 moves the request
    and the metrics out of it into the value sender before [if_then_else]
    chooses, in both branches, and nothing reads the state afterwards.  The
    completion is what is modelled. *)
Definition finished (state : recv_state) : completion (R * recv_metric) :=
  match State (parser state) with
  | kCompleted => set_value (request state, metric state)
  | s => set_error (ec_http1 (detailed_error s))
  end.

(** *** The read and its deadline *)

(** What the outside world does to one read: bytes arrive (none when the
    peer has closed) with the time points at which the read started and
    stopped, the read fails, the deadline passes first, or the read is
    cancelled from outside. *)
Inductive io_event : Type :=
| io_read (start stop : Z) (data : list byte)
| io_fail (ec : error_code)
| io_deadline
| io_cancel.

(** [std::span{state.buffer}.subspan(state.unparsed_size)] (lines 121-123). *)
Definition recv_buffer (state : recv_state) : span :=
  {| offset := Z.to_nat (unparsed_size state);
     count := (length (buffer state) - Z.to_nat (unparsed_size state))%nat |}.

Definition set_buffer (state : recv_state) (b : list byte) : recv_state :=
  {| buffer := b; unparsed_size := unparsed_size state;
     parser := parser state; request := request state;
     metric := metric state; remaining_time := remaining_time state |}.

(** [sio::async::read_some(socket, window)]: at most [count window] bytes
    are stored from [offset window] on, and their number is the value.  A
    read that is cancelled, by the deadline or from outside, completes with
    stopped. *)
Definition read_some (ev : io_event) (window : span) : sender recv_state Z :=
  fun state =>
    match ev with
    | io_read _ _ data =>
        let received := take (count window) data in
        (set_value (Z.of_nat (length received)),
         set_buffer state (list_inserts (offset window) received (buffer state)))
    | io_fail ec => (set_error ec, state)
    | io_deadline | io_cancel => (set_stopped, state)
    end.

(** Modelled from the spec: [ex::timeout(scheduler, duration)] of
    utils/timeout.h, which is not among the sources.  It arms the deadline
    for the sender before it and passes on that sender's value together
    with the time points at which it started and stopped (the three
    arguments of the lambda after it); when the deadline passes first the
    read is stopped, and stopped is the completion [recv_request] turns
    into the timeout error. *)
Definition timeout {A : Type} (ev : io_event) (snd : sender recv_state A)
  : sender recv_state (Z * Z * A) :=
  match ev with
  | io_deadline => fun state => (set_stopped, state)
  | io_read start stop _ => snd |> let_value (fun a => just (start, stop, a))
  | io_fail _ | io_cancel => snd |> let_value (fun a => just (0, 0, a))
  end.

(** *** recv_request (lines 116-139) *)

(** The sender that [repeat_effect_until] runs again and again (lines
    127-135).  [window] is the value of [recv_buffer()], the argument of
    [read_some]: C++ evaluates it when the pipeline is built, once, so every
    run of the sender reads into the same span. *)
Definition recv_once (window : span) (ev : io_event) : sender recv_state bool :=
  read_some ev window
  |> let_value check_recv_size
  |> timeout ev
  |> let_stopped (just_error (ec_http1 kRecvTimeout))
  |> let_value (fun '(start, stop, recv_size) state =>
                  (set_value tt, update_state start stop recv_size state))
  |> let_value (fun _ => parse_request).

(** [ex::repeat_effect_until()]: run the sender until its value is [true];
    an error or stopped ends the loop too.  The events are what happens to
    the successive reads; when they run out the pipeline is suspended in a
    read, and there is no completion yet.  The number counts the reads that
    were started. *)
Fixpoint repeat_effect_until (window : span) (events : list io_event)
  (state : recv_state) : option (completion unit) * recv_state * nat :=
  match events with
  | [] => (None, state, 1%nat)
  | ev :: events' =>
      match recv_once window ev state with
      | (set_value true, state') => (Some (set_value tt), state', 1%nat)
      | (set_value false, state') =>
          let '(c, s, n) := repeat_effect_until window events' state' in
          (c, s, S n)
      | (set_error e, state') => (Some (set_error e), state', 1%nat)
      | (set_stopped, state') => (Some set_stopped, state', 1%nat)
      end
  end.

(** The capacity of the buffer, and the parser and the request of a new
    state. *)
Variable capacity : nat.
Variable parser_init : P.
Variable request_init : R.

(** Modelled from the spec: [recv_state{}] of tcp_connection.h, which is
    not among the sources: a buffer of the fixed capacity, no unparsed
    bytes, a fresh parser and request, and metrics that are all zero. *)
Definition recv_state_init : recv_state :=
  {| buffer := replicate capacity x00;
     unparsed_size := 0;
     parser := parser_init; request := request_init;
     metric := {| time_first := 0; time_last := 0; time_elapsed := 0; size_total := 0 |};
     remaining_time := 0 |}.

(** [recv_option{}], the options [recv_request] initializes the state with. *)
Variable default_option : recv_option.

(** The state returned with the completion is the state the loop ended in,
    before [finished] takes the request and the metrics out of it. *)
Definition recv_request (events : list io_event)
  : option (completion (R * recv_metric)) * recv_state * nat :=
  let state := recv_state_init in
  let state := initialize_state state default_option in
  let window := recv_buffer state in
  let '(c, state', n) := repeat_effect_until window events state in
  match c with
  | Some (set_value _) => (Some (finished state'), state', n)
  | Some (set_error e) => (Some (set_error e), state', n)
  | Some set_stopped => (Some set_stopped, state', n)
  | None => (None, state', n)
  end.

End Pipeline.

Arguments recv_state : clear implicits.
Arguments io_event : clear implicits.

(** ** A scripted parser

    A parser for running the pipeline on concrete inputs: each call records
    the text it was handed and answers with the next entry of its script (the
    bytes consumed, the error code, the state the parser is in afterwards);
    with the script used up it asks for more data.  Any run of a real parser
    on a concrete input is the run of such a script. *)

Record scripted : Type := {
  script : list (Z * error_code * MessageState);
  current : MessageState;
  texts : list (list byte);
}.

#[export] Instance scripted_parser : MessageParser scripted unit := {|
  Parse p r text :=
    match script p with
    | [] =>
        ({| script := []; current := current p; texts := texts p ++ [text] |},
         r, 0, ec_http1 kNeedMore)
    | (parsed_size, ec, st) :: rest =>
        ({| script := rest; current := st; texts := texts p ++ [text] |},
         r, parsed_size, ec)
    end;
  State p := current p;
|}.

Definition scripted_init (sc : list (Z * error_code * MessageState)) : scripted :=
  {| script := sc; current := kNothingYet; texts := [] |}.

(** The tick of [system_clock] in libstdc++ is a nanosecond. *)
Definition nanoseconds : Z := 1000000000.

(** A [CopyArray] that returns all the bytes of the array. *)
Definition copy_all (b : list byte) : list byte := b.

(** ** The time budget, in the words of the specification *)

Inductive budget : Type :=
| Finite (seconds : Z)
| Unbounded.

(** A configured duration is finite unless it is the unbounded sentinel. *)
Definition budget_of (seconds : Z) : budget :=
  if seconds =? unlimited_timeout then Unbounded else Finite seconds.

(** "If keepalive_timeout is set to a finite value, it, not total_timeout,
    seeds remaining_budget at session start; otherwise total_timeout seeds
    it." *)
Definition seed_budget (keepalive total : budget) : budget :=
  match keepalive with
  | Finite d => Finite d
  | Unbounded => total
  end.

(** ** What a run returns *)

Definition outcome {A S : Type} (r : option (completion A) * S * nat)
  : option (completion A) := fst (fst r).
Definition final_state {A S : Type} (r : option (completion A) * S * nat) : S :=
  snd (fst r).
Definition reads_started {A S : Type} (r : option (completion A) * S * nat) : nat :=
  snd r.

(** ** Concrete runs *)

(** The options of t.cpp's [recv_option]: one hour of keep-alive, 120 seconds
    to receive. *)
Definition sample_option : recv_option :=
  {| keepalive_timeout := 3600; total_timeout := 120 |}.

(** [recv_request] with the scripted parser, a buffer of [cap] bytes and a
    nanosecond clock. *)
Definition scripted_run (sc : list (Z * error_code * MessageState)) (cap : nat)
  (events : list (io_event)) :=
  recv_request nanoseconds copy_all cap (scripted_init sc) tt sample_option events.

(** A state of the scripted parser's pipeline, for running single functions. *)
Definition scripted_state (sc : list (Z * error_code * MessageState))
  (buf : list byte) (unparsed : Z) (remaining : Z) : recv_state scripted unit :=
  {| buffer := buf; unparsed_size := unparsed;
     parser := scripted_init sc; request := tt;
     metric := {| time_first := 0; time_last := 0; time_elapsed := 0; size_total := 0 |};
     remaining_time := remaining |}.

(** The state after a series of successful reads, each given by its start,
    its stop and the number of bytes: [update_state] is the only function of
    the pipeline that writes the metrics and the remaining time. *)
Definition update_state_all {P R : Type} (ticks_per_second : Z)
  (reads : list (Z * Z * Z)) (state : recv_state P R) : recv_state P R :=
  fold_left (fun s '(start, stop, recv_size) =>
               update_state ticks_per_second start stop recv_size s) reads state.

(** The whole seconds a series of reads took, each read measured from its
    start to its stop. *)
Fixpoint seconds_taken (ticks_per_second : Z) (reads : list (Z * Z * Z)) : Z :=
  match reads with
  | [] => 0
  | (start, stop, _) :: reads' =>
      duration_cast_seconds ticks_per_second (stop - start)
      + seconds_taken ticks_per_second reads'
  end.

(** ** Measures of a series of reads *)

(** The number of bytes a read stores in a window of [cap] bytes. *)
Definition stored_bytes (cap : nat) (ev : io_event) : Z :=
  match ev with
  | io_read _ _ data => Z.of_nat (length (take cap data))
  | _ => 0
  end.

Fixpoint bytes_stored (cap : nat) (events : list io_event) : Z :=
  match events with
  | [] => 0
  | ev :: events' => stored_bytes cap ev + bytes_stored cap events'
  end.

(** The first of the time points that is not the zero [update_state] takes
    for "not set"; zero when there is none. *)
Fixpoint first_set (times : list Z) : Z :=
  match times with
  | [] => 0
  | t :: times' => if t =? 0 then first_set times' else t
  end.

(** The state after a read that stored bytes, when [update_state] has run
    and before the parser does (lines 127-134). *)
Definition after_read {P R : Type} (ticks_per_second : Z) (window : span)
  (start stop : Z) (data : list byte) (state : recv_state P R) : recv_state P R :=
  update_state ticks_per_second start stop
    (Z.of_nat (length (take (count window) data)))
    (set_buffer state
       (list_inserts (offset window) (take (count window) data) (buffer state))).

(** * Properties *)

(** ** Machine integers *)

Lemma wrap_i64_id (z : Z) : in_i64 z -> wrap_i64 z = z.
Proof.
  unfold in_i64, wrap_i64. intros Hz.
  rewrite Z.mod_small; lia.
Qed.

Lemma wrap_u64_id (z : Z) : in_u64 z -> wrap_u64 z = z.
Proof. unfold in_u64, wrap_u64. intros Hz. apply Z.mod_small. lia. Qed.

(** ** memcpy toward the front of the buffer *)

Lemma memcpy_length (n : nat) :
  forall (buf : list byte) (dst src : nat), length (memcpy buf dst src n) = length buf.
Proof.
  induction n as [|n IH]; intros buf dst src; simpl; [done|].
  rewrite IH. destruct (buf !! src); [apply length_insert | done].
Qed.

(** Copying [n] bytes from [d + k] to [d]: inside the destination the bytes
    are the old bytes [k] places further on, elsewhere nothing changes. *)
Lemma memcpy_lookup (n : nat) :
  forall (buf : list byte) (d k j : nat),
    (d + k + n <= length buf)%nat ->
    memcpy buf d (d + k) n !! j
    = if decide (d <= j < d + n)%nat then buf !! (j + k)%nat else buf !! j.
Proof.
  induction n as [|n IH]; intros buf d k j Hlen; simpl.
  - case_decide; [lia | done].
  - destruct (lookup_lt_is_Some_2 buf (d + k)%nat) as [b Hb]; [lia|].
    rewrite Hb.
    replace (S (d + k)) with (S d + k)%nat by lia.
    rewrite IH by (rewrite length_insert; lia).
    destruct (decide (j = d)) as [->|Hne].
    + rewrite decide_False by lia. rewrite decide_True by lia.
      rewrite list_lookup_insert_eq by lia. by rewrite Nat.add_comm in Hb |- *.
    + repeat case_decide; try lia.
      * apply list_lookup_insert_ne; lia.
      * apply list_lookup_insert_ne; lia.
Qed.

(** The compaction copy is exact: the first [n] bytes afterwards are the [n]
    bytes that started at [k], in order. *)
Lemma memcpy_front (buf : list byte) (k n : nat) :
  (k + n <= length buf)%nat ->
  take n (memcpy buf 0 k n) = take n (drop k buf).
Proof.
  intros Hlen. apply list_eq. intros j.
  rewrite !lookup_take. case_decide; [|done].
  rewrite lookup_drop.
  pose proof (memcpy_lookup n buf 0 k j) as Hcopy. simpl in Hcopy.
  rewrite Hcopy by lia.
  rewrite decide_True by lia. f_equal. lia.
Qed.

(** Bytes behind the copied ones keep their old value. *)
Lemma memcpy_behind (buf : list byte) (k n j : nat) :
  (k + n <= length buf)%nat -> (n <= j)%nat ->
  memcpy buf 0 k n !! j = buf !! j.
Proof.
  intros Hlen Hj.
  pose proof (memcpy_lookup n buf 0 k j) as Hcopy. simpl in Hcopy.
  rewrite Hcopy by lia. by rewrite decide_False by lia.
Qed.

(** ** The deadline arithmetic of update_state *)

Section Deadline.

Context {P R : Type}.
Variable ticks_per_second : Z.
Hypothesis ticks_pos : 0 < ticks_per_second.

Local Abbreviation update := (@update_state P R ticks_per_second).
Local Abbreviation to_seconds := (duration_cast_seconds ticks_per_second).
Local Abbreviation seconds_of := (seconds_taken ticks_per_second).

(** duration_cast truncates toward zero: what is cut off is less than a
    second and has the sign of the duration. *)
Lemma duration_cast_seconds_truncates (d : Z) :
  exists r, d = to_seconds d * ticks_per_second + r
            /\ Z.abs r < ticks_per_second /\ 0 <= r * d.
Proof.
  exists (Z.rem d ticks_per_second). unfold duration_cast_seconds.
  split; [|split].
  - pose proof (Z.quot_rem' d ticks_per_second). lia.
  - pose proof (Z.rem_bound_abs d ticks_per_second). lia.
  - apply Z.rem_sign_mul. lia.
Qed.

Lemma duration_cast_seconds_sub_second (d : Z) :
  Z.abs d < ticks_per_second -> to_seconds d = 0.
Proof.
  intros Hd. unfold duration_cast_seconds.
  apply Z.quot_small_iff; lia.
Qed.

Lemma duration_cast_seconds_opp (d : Z) :
  to_seconds (- d) = - to_seconds d.
Proof. unfold duration_cast_seconds. apply Z.quot_opp_l. lia. Qed.

Lemma duration_cast_seconds_nonneg (d : Z) :
  0 <= d -> 0 <= to_seconds d.
Proof.
  intros Hd. unfold duration_cast_seconds. apply Z.quot_pos; lia.
Qed.

(** What a read that stops after it started does to the remaining time: the
    whole seconds it took are added, not subtracted, because the duration is
    taken as [start - stop]. *)
Lemma update_state_adds_to_remaining_time (start stop recv_size : Z)
  (state : recv_state P R) :
  start <= stop ->
  in_i64 (start - stop) ->
  in_i64 (remaining_time state + to_seconds (stop - start)) ->
  remaining_time (update start stop recv_size state)
  = remaining_time state + to_seconds (stop - start)
  /\ remaining_time state <= remaining_time (update start stop recv_size state).
Proof.
  intros Hle Hd Hr. simpl.
  rewrite (wrap_i64_id (start - stop)) by done.
  replace (start - stop) with (- (stop - start)) by lia.
  rewrite duration_cast_seconds_opp.
  pose proof (duration_cast_seconds_nonneg (stop - start)) as Hq.
  rewrite wrap_i64_id.
  - lia.
  - replace (remaining_time state - - to_seconds (stop - start))
      with (remaining_time state + to_seconds (stop - start)) by lia.
    done.
Qed.

Lemma seconds_taken_nonneg (reads : list (Z * Z * Z)) :
  Forall (fun '(start, stop, _) => start <= stop) reads ->
  0 <= seconds_of reads.
Proof.
  induction 1 as [|[[start stop] n] reads Hle _ IH]; simpl; [lia|].
  pose proof (duration_cast_seconds_nonneg (stop - start)). lia.
Qed.

(** After any series of reads that stop after they started, the remaining
    time is the initial one plus the seconds the reads took: it never goes
    down. *)
Lemma remaining_time_after_reads (reads : list (Z * Z * Z)) :
  forall state : recv_state P R,
    Forall (fun '(start, stop, _) => start <= stop /\ in_i64 (start - stop)) reads ->
    in_i64 (remaining_time state) ->
    in_i64 (remaining_time state + seconds_of reads) ->
    remaining_time (update_state_all ticks_per_second reads state)
    = remaining_time state + seconds_of reads
    /\ remaining_time state
       <= remaining_time (update_state_all ticks_per_second reads state).
Proof.
  induction reads as [|[[start stop] n] reads IH]; intros state Hall Hr Hsum.
  - simpl. lia.
  - apply Forall_cons_1 in Hall as [[Hle Hd] Hall].
    assert (0 <= seconds_of reads) as Hrest.
    { apply seconds_taken_nonneg. eapply Forall_impl; [|exact Hall].
      intros [[? ?] ?]. tauto. }
    pose proof (duration_cast_seconds_nonneg (stop - start)) as Hq.
    cbn [seconds_taken] in Hsum |- *.
    destruct (update_state_adds_to_remaining_time start stop n state Hle Hd)
      as [Hstep _]; [unfold in_i64 in *; lia|].
    unfold update_state_all in *. cbn [fold_left].
    destruct (IH (update start stop n state) Hall) as [Hall_eq _].
    + rewrite Hstep. unfold in_i64 in *; lia.
    + rewrite Hstep. unfold in_i64 in *.
      replace (remaining_time state + to_seconds (stop - start) + seconds_of reads)
        with (remaining_time state + (to_seconds (stop - start) + seconds_of reads))
        by lia.
      done.
    + rewrite Hall_eq, Hstep. lia.
Qed.

(** The fields of the claim that [update_state] does set as stated. *)
Lemma update_state_counts (start stop recv_size : Z) (state : recv_state P R) :
  let state' := update start stop recv_size state in
  time_first (metric state')
  = (if time_first (metric state) =? 0 then start else time_first (metric state))
  /\ time_last (metric state') = stop
  /\ size_total (metric state') = wrap_u64 (size_total (metric state) + recv_size)
  /\ unparsed_size state' = wrap_u64 (unparsed_size state + recv_size)
  /\ buffer state' = buffer state
  /\ parser state' = parser state
  /\ request state' = request state.
Proof. simpl. repeat split. Qed.

Lemma update_state_sub_second (start stop recv_size : Z) (state : recv_state P R) :
  in_i64 (start - stop) -> Z.abs (start - stop) < ticks_per_second ->
  in_i64 (time_elapsed (metric state)) -> in_i64 (remaining_time state) ->
  time_elapsed (metric (update start stop recv_size state))
  = time_elapsed (metric state)
  /\ remaining_time (update start stop recv_size state) = remaining_time state.
Proof.
  intros Hd Hsmall He Hr. simpl.
  rewrite (wrap_i64_id (start - stop)) by done.
  rewrite duration_cast_seconds_sub_second by done.
  rewrite Z.add_0_r, Z.sub_0_r. by rewrite !wrap_i64_id.
Qed.

(** C10. For every successful read, the duration that update_state folds
    into Metrics.elapsed and subtracts from remaining_budget is the
    difference of the two time points truncated to whole seconds; so a read
    whose time points differ by less than one second adds zero to
    Metrics.elapsed and leaves remaining_budget as it was, however many such
    reads there are. *)
Theorem sub_second_reads_cost_nothing (state : recv_state P R) :
  in_i64 (time_elapsed (metric state)) ->
  in_i64 (remaining_time state) ->
  (forall start stop recv_size,
      in_i64 (start - stop) ->
      exists elapsed r,
        start - stop = elapsed * ticks_per_second + r
        /\ Z.abs r < ticks_per_second /\ 0 <= r * (start - stop)
        /\ time_elapsed (metric (update start stop recv_size state))
           = wrap_i64 (time_elapsed (metric state) + elapsed)
        /\ remaining_time (update start stop recv_size state)
           = wrap_i64 (remaining_time state - elapsed))
  /\ (forall reads : list (Z * Z * Z),
         Forall (fun '(start, stop, _) =>
                   in_i64 (start - stop)
                   /\ Z.abs (start - stop) < ticks_per_second) reads ->
         time_elapsed (metric (update_state_all ticks_per_second reads state))
         = time_elapsed (metric state)
         /\ remaining_time (update_state_all ticks_per_second reads state)
            = remaining_time state).
Proof.
  intros He Hr. split.
  - intros start stop recv_size Hd.
    destruct (duration_cast_seconds_truncates (start - stop)) as (r & Hq & Hb & Hs).
    exists (to_seconds (start - stop)), r.
    simpl. rewrite (wrap_i64_id (start - stop)) by done. auto.
  - intros reads. revert state He Hr.
    induction reads as [|[[start stop] n] reads IH]; intros state He Hr Hall;
      [done|].
    apply Forall_cons_1 in Hall as [[Hd Hsmall] Hall].
    destruct (update_state_sub_second start stop n state Hd Hsmall He Hr)
      as [He' Hr'].
    unfold update_state_all in *. cbn [fold_left].
    rewrite <- He', <- Hr'. apply IH; [by rewrite He' | by rewrite Hr' | done].
Qed.

End Deadline.

(** ** The loop *)

Section Loop.

Context {P R : Type} `{!MessageParser P R}.
Variable ticks_per_second : Z.
Variable CopyArray : list byte -> list byte.

Local Abbreviation parse := (parse_request (P:=P) (R:=R) CopyArray).
Local Abbreviation once := (recv_once (P:=P) (R:=R) ticks_per_second CopyArray).
Local Abbreviation loop := (repeat_effect_until (P:=P) (R:=R) ticks_per_second CopyArray).

Lemma set_buffer_same (state : recv_state P R) : set_buffer state (buffer state) = state.
Proof. by destruct state. Qed.

(** *** One run of the repeated sender, by what happens to its read *)

Lemma recv_once_deadline (window : span) (state : recv_state P R) :
  once window io_deadline state = (set_error (ec_http1 kRecvTimeout), state).
Proof. reflexivity. Qed.

Lemma recv_once_cancel (window : span) (state : recv_state P R) :
  once window io_cancel state = (set_error (ec_http1 kRecvTimeout), state).
Proof. reflexivity. Qed.

Lemma recv_once_fail (window : span) (ec : error_code) (state : recv_state P R) :
  once window (io_fail ec) state = (set_error ec, state).
Proof. reflexivity. Qed.

(** A read that stores no byte, because none came or because the window has
    no room, ends with [kEndOfStream]. *)
Lemma recv_once_no_bytes (window : span) (start stop : Z) (data : list byte)
  (state : recv_state P R) :
  take (count window) data = [] ->
  once window (io_read start stop data) state
  = (set_error (ec_http1 kEndOfStream), state).
Proof.
  intros Hnone. unfold recv_once, timeout, let_stopped, let_value,
    read_some. simpl. rewrite Hnone. simpl. by rewrite set_buffer_same.
Qed.

(** A read that stores bytes is followed by [update_state] and by the
    parser. *)
Lemma recv_once_bytes (window : span) (start stop : Z) (data : list byte)
  (state : recv_state P R) :
  take (count window) data <> [] ->
  let received := take (count window) data in
  once window (io_read start stop data) state
  = parse
      (update_state ticks_per_second start stop (Z.of_nat (length received))
         (set_buffer state (list_inserts (offset window) received (buffer state)))).
Proof.
  intros Hsome. unfold recv_once, timeout, let_stopped, let_value,
    read_some, check_recv_size. cbn zeta.
  destruct (take (count window) data) as [|b received] eqn:Htake; [done|].
  cbn [length]. rewrite Nat2Z.inj_succ.
  destruct (Z.succ (Z.of_nat (length received)) =? 0) eqn:Hz;
    [apply Z.eqb_eq in Hz; lia|].
  reflexivity.
Qed.

(** [parse_request] never completes with an error or stopped. *)
Lemma parse_request_value (state : recv_state P R) :
  exists b, fst (parse state) = set_value b.
Proof.
  unfold parse_request.
  destruct (Parse _ _ _) as [[[p' r'] k] ec]. eauto.
Qed.

(** It leaves the metrics and the remaining time alone. *)
Lemma parse_request_keeps_metric (state : recv_state P R) :
  metric (snd (parse state)) = metric state
  /\ remaining_time (snd (parse state)) = remaining_time state.
Proof.
  unfold parse_request.
  destruct (Parse _ _ _) as [[[p' r'] k] ec].
  by destruct (ec_is ec kNeedMore && (k <? unparsed_size state)).
Qed.

(** *** The loop, by its first event *)

Lemma loop_stops_at_error (window : span) (ev : io_event) (rest : list io_event)
  (state state' : recv_state P R) (e : error_code) :
  once window ev state = (set_error e, state') ->
  loop window (ev :: rest) state = (Some (set_error e), state', 1%nat).
Proof. intros Hev. simpl. by rewrite Hev. Qed.

Lemma loop_stops_at_true (window : span) (ev : io_event) (rest : list io_event)
  (state state' : recv_state P R) :
  once window ev state = (set_value true, state') ->
  loop window (ev :: rest) state = (Some (set_value tt), state', 1%nat).
Proof. intros Hev. simpl. by rewrite Hev. Qed.

Lemma loop_repeats_at_false (window : span) (ev : io_event) (rest : list io_event)
  (state state' : recv_state P R) :
  once window ev state = (set_value false, state') ->
  loop window (ev :: rest) state
  = (let '(c, s, n) := loop window rest state' in (c, s, S n)).
Proof. intros Hev. simpl. by rewrite Hev. Qed.

(** Every read that is started counts: the loop has started one at least. *)
Lemma loop_reads_positive (window : span) (events : list io_event)
  (state : recv_state P R) :
  (1 <= snd (loop window events state))%nat.
Proof.
  destruct events as [|ev events]; simpl; [lia|].
  destruct (once window ev state) as [[[]| |] state']; simpl; try lia.
  destruct (loop window events state') as [[? ?] ?]. simpl. lia.
Qed.

(** While the loop is suspended in a read, what happens next is what the
    loop does from the state it is suspended in. *)
Lemma loop_app (window : span) (pre rest : list io_event) :
  forall (state state' : recv_state P R) (n : nat),
    loop window pre state = (None, state', n) ->
    loop window (pre ++ rest) state
    = (let '(c, s, m) := loop window rest state' in (c, s, (n + m - 1)%nat)).
Proof.
  induction pre as [|ev pre IH]; intros state state' n Hpre.
  - simpl in Hpre. simplify_eq. simpl.
    destruct (loop window rest state') as [[c s] m].
    do 2 f_equal. lia.
  - simpl in Hpre |- *.
    destruct (once window ev state) as [[[]| |] state1]; try done.
    destruct (loop window pre state1) as [[c1 s1] n1] eqn:Hloop.
    simplify_eq.
    rewrite (IH _ _ _ Hloop).
    destruct (loop window rest state') as [[c s] m].
    do 2 f_equal.
    pose proof (loop_reads_positive window pre state1) as Hpos.
    rewrite Hloop in Hpos. simpl in Hpos. lia.
Qed.

(** *** The loop's failures *)

Lemma loop_failures (window : span) (events : list io_event) :
  forall (state state' : recv_state P R) (e : error_code) (n : nat),
    loop window events state = (Some (set_error e), state', n) ->
    e = ec_http1 kEndOfStream \/ e = ec_http1 kRecvTimeout
    \/ In (io_fail e) events.
Proof.
  induction events as [|ev events IH]; intros state state' e n Hloop;
    [done|].
  simpl in Hloop.
  destruct (once window ev state) as [[[]|e1|] state1] eqn:Hev.
  - simplify_eq.
  - destruct (loop window events state1) as [[c s] m] eqn:Hrest.
    simplify_eq. destruct (IH _ _ _ _ Hrest) as [?|[?|?]]; auto.
    right; right; by right.
  - simplify_eq. destruct ev as [start stop data|ec| |].
    + destruct (take (count window) data) as [|b l] eqn:Htake.
      * rewrite recv_once_no_bytes in Hev by done. simplify_eq. auto.
      * rewrite recv_once_bytes in Hev by (by rewrite Htake).
        destruct (parse_request_value
                    (update_state ticks_per_second start stop
                       (Z.of_nat (length (take (count window) data)))
                       (set_buffer state
                          (list_inserts (offset window)
                             (take (count window) data) (buffer state)))))
          as [b' Hb'].
        rewrite Hev in Hb'. done.
    + rewrite recv_once_fail in Hev. simplify_eq.
      right; right; by left.
    + rewrite recv_once_deadline in Hev. simplify_eq. auto.
    + rewrite recv_once_cancel in Hev. simplify_eq. auto.
  - simplify_eq.
Qed.

(** *** parse_request *)

Lemma check_parse_done_true (ec : error_code) :
  check_parse_done ec = true <-> ec_bool ec = true /\ ec_is ec kNeedMore = false.
Proof.
  unfold check_parse_done. rewrite andb_true_iff, negb_true_iff. done.
Qed.

(** A parser call that leaves no error in [ec], as when the message is
    complete, makes [parse_request] answer [false]: the loop goes on. *)
Lemma parse_request_no_error_is_false (state : recv_state P R)
  (p' : P) (r' : R) (k : Z) :
  Parse (parser state) (request state) (CopyArray (buffer state))
  = (p', r', k, ec_default) ->
  parse state
  = (set_value false,
     {| buffer := buffer state; unparsed_size := unparsed_size state;
        parser := p'; request := r';
        metric := metric state; remaining_time := remaining_time state |}).
Proof. intros Hparse. unfold parse_request. by rewrite Hparse. Qed.

(** A parse error makes it answer [true]. *)
Lemma parse_request_error_is_true (state : recv_state P R)
  (p' : P) (r' : R) (k : Z) (ec : error_code) :
  Parse (parser state) (request state) (CopyArray (buffer state))
  = (p', r', k, ec) ->
  ec_bool ec = true -> ec_is ec kNeedMore = false ->
  fst (parse state) = set_value true.
Proof.
  intros Hparse Hb Hn. unfold parse_request. rewrite Hparse, Hn. simpl.
  unfold check_parse_done. by rewrite Hb, Hn.
Qed.

(** Compaction when the parser wants more data and has consumed fewer bytes
    than are unparsed: the count goes down by the bytes consumed, and the
    unconsumed bytes of the window stand at the front of the buffer, byte
    for byte and in order. *)
Lemma parse_request_compacts (state : recv_state P R)
  (p' : P) (r' : R) (k : Z) :
  Parse (parser state) (request state) (CopyArray (buffer state))
  = (p', r', k, ec_http1 kNeedMore) ->
  0 <= k < unparsed_size state ->
  unparsed_size state <= Z.of_nat (length (buffer state)) ->
  in_u64 (unparsed_size state) ->
  let state' := snd (parse state) in
  fst (parse state) = set_value false
  /\ unparsed_size state' = unparsed_size state - k
  /\ length (buffer state') = length (buffer state)
  /\ take (Z.to_nat (unparsed_size state')) (buffer state')
     = drop (Z.to_nat k) (take (Z.to_nat (unparsed_size state)) (buffer state)).
Proof.
  intros Hparse Hk Hlen Hu. unfold parse_request. rewrite Hparse.
  assert ((k <? unparsed_size state) = true) as -> by (apply Z.ltb_lt; lia).
  assert (wrap_u64 (unparsed_size state - k) = unparsed_size state - k) as ->
    by (apply wrap_u64_id; unfold in_u64 in *; lia).
  simpl. repeat split.
  - apply memcpy_length.
  - rewrite memcpy_front by lia.
    rewrite skipn_firstn_comm. f_equal. lia.
Qed.

(** When the parser has consumed all the unparsed bytes and wants more, the
    guard [parsed_size < state.unparsed_size] is false and nothing is done:
    the count stays, the buffer stays. *)
Lemma parse_request_all_consumed (state : recv_state P R) (p' : P) (r' : R) :
  Parse (parser state) (request state) (CopyArray (buffer state))
  = (p', r', unparsed_size state, ec_http1 kNeedMore) ->
  parse state
  = (set_value false,
     {| buffer := buffer state; unparsed_size := unparsed_size state;
        parser := p'; request := r';
        metric := metric state; remaining_time := remaining_time state |}).
Proof.
  intros Hparse. unfold parse_request. rewrite Hparse.
  by rewrite Z.ltb_irrefl, andb_false_r.
Qed.

(** The text the parser is handed is made from the buffer alone: two states
    with the same buffer, parser and request get the same parser answer,
    whatever their counts of unparsed bytes are. *)
Lemma parse_request_text_ignores_unparsed_size (state : recv_state P R) (n : Z) :
  let state_n :=
    {| buffer := buffer state; unparsed_size := n;
       parser := parser state; request := request state;
       metric := metric state; remaining_time := remaining_time state |} in
  fst (parse state_n) = fst (parse state)
  /\ parser (snd (parse state_n)) = parser (snd (parse state))
  /\ request (snd (parse state_n)) = request (snd (parse state)).
Proof.
  unfold parse_request. simpl.
  destruct (Parse _ _ _) as [[[p' r'] k] ec].
  by destruct (ec_is ec kNeedMore && (k <? n)),
              (ec_is ec kNeedMore && (k <? unparsed_size state)).
Qed.

End Loop.

(** ** recv_request *)

Section Request.

Context {P R : Type} `{!MessageParser P R}.
Variable ticks_per_second : Z.
Variable CopyArray : list byte -> list byte.
Variable capacity : nat.
Variable parser_init : P.
Variable request_init : R.
Variable default_option : recv_option.

Local Abbreviation loop := (repeat_effect_until (P:=P) (R:=R) ticks_per_second CopyArray).
Local Abbreviation recv :=
  (recv_request (P:=P) (R:=R) ticks_per_second CopyArray capacity parser_init
     request_init default_option).
Local Abbreviation state0 :=
  (initialize_state (recv_state_init capacity parser_init request_init) default_option).

(** The span all the reads of a run are given: the whole buffer. *)
Lemma recv_request_window :
  recv_buffer state0 = {| offset := 0; count := capacity |}.
Proof.
  unfold initialize_state, recv_buffer.
  destruct (negb _); simpl; rewrite length_replicate; f_equal; lia.
Qed.

(** While the pipeline is suspended in a read, so is its loop. *)
Lemma recv_request_suspended (events : list io_event) (state : recv_state P R)
  (n : nat) :
  recv events = (None, state, n) ->
  loop (recv_buffer state0) events state0 = (None, state, n).
Proof.
  unfold recv_request.
  destruct (loop _ events _) as [[c s] m].
  destruct c as [[[]|e|]|]; intros Hrecv; by simplify_eq.
Qed.

(** An error of the loop is the pipeline's outcome: [finished] is not run. *)
Lemma recv_request_error (events : list io_event) (state : recv_state P R)
  (e : error_code) (n : nat) :
  loop (recv_buffer state0) events state0 = (Some (set_error e), state, n) ->
  recv events = (Some (set_error e), state, n).
Proof. unfold recv_request. by intros ->. Qed.

(** What ends a read that is outstanding without a byte, the deadline or a
    cancellation, ends the pipeline with [kRecvTimeout]. *)
Lemma recv_request_stopped_read (ev : io_event) (pre rest : list io_event)
  (state : recv_state P R) (n : nat) :
  ev = io_deadline \/ ev = io_cancel ->
  recv pre = (None, state, n) ->
  recv (pre ++ ev :: rest) = (Some (set_error (ec_http1 kRecvTimeout)), state, n).
Proof.
  intros Hev Hpre. apply recv_request_error.
  rewrite (loop_app _ _ _ _ _ _ _ _ (recv_request_suspended _ _ _ Hpre)).
  rewrite (loop_stops_at_error _ _ _ ev rest state state (ec_http1 kRecvTimeout)).
  - pose proof (loop_reads_positive ticks_per_second CopyArray
                  (recv_buffer state0) pre state0) as Hpos.
    rewrite (recv_request_suspended _ _ _ Hpre) in Hpos. simpl in Hpos.
    do 2 f_equal. lia.
  - destruct Hev as [-> | ->]; reflexivity.
Qed.

(** C7 (amended). For every read that is cancelled from outside, the
    pipeline fails: its outcome is an error, not a completion of a kind of
    its own for the cancellation; the error is not kEndOfStream, no Request
    is produced, and the cancelled read leaves the state as the reads before
    it left it. *)
Theorem cancelled_read_fails_without_request (pre rest : list io_event)
  (state : recv_state P R) (n : nat) :
  recv pre = (None, state, n) ->
  exists e,
    recv (pre ++ io_cancel :: rest) = (Some (set_error e), state, n)
    /\ e <> ec_http1 kEndOfStream.
Proof.
  intros Hpre. exists (ec_http1 kRecvTimeout). split; [|done].
  apply recv_request_stopped_read; auto.
Qed.

(** The seeding of the budget is exact: [budget_of] loses nothing. *)
Lemma budget_of_inj (a b : Z) : budget_of a = budget_of b -> a = b.
Proof.
  unfold budget_of.
  destruct (a =? unlimited_timeout) eqn:Ha, (b =? unlimited_timeout) eqn:Hb;
    intros Heq; simplify_eq; try done.
  apply Z.eqb_eq in Ha, Hb. congruence.
Qed.

(** C9. At session start, when keepalive_timeout is configured to a finite
    value, it seeds remaining_budget, and otherwise total_timeout seeds it,
    for every combination of finite and unbounded values: initialize_state
    refines the seeding rule of the specification, and the state in which
    recv_request starts its first read has the budget initialize_state gives
    for the options recv_request passes. *)
Theorem initialize_state_seeds_budget (state : recv_state P R) (opt : recv_option) :
  budget_of (remaining_time (initialize_state state opt))
  = seed_budget (budget_of (keepalive_timeout opt)) (budget_of (total_timeout opt))
  /\ buffer (initialize_state state opt) = buffer state
  /\ unparsed_size (initialize_state state opt) = unparsed_size state
  /\ metric (initialize_state state opt) = metric state
  /\ budget_of (remaining_time (final_state (recv [])))
     = seed_budget (budget_of (keepalive_timeout default_option))
         (budget_of (total_timeout default_option)).
Proof.
  assert (forall s o,
             budget_of (remaining_time (initialize_state (P:=P) (R:=R) s o))
             = seed_budget (budget_of (keepalive_timeout o))
                 (budget_of (total_timeout o))) as Hseed.
  { intros s o. unfold initialize_state, budget_of at 2.
    by destruct (keepalive_timeout o =? unlimited_timeout) eqn:Hk; simpl;
      [|unfold budget_of; rewrite Hk]. }
  split; [apply Hseed|].
  unfold initialize_state at 1 2 3.
  repeat split; try by destruct (negb _).
  unfold recv_request, final_state. simpl. apply Hseed.
Qed.

End Request.

(** ** The pipeline on concrete inputs *)

Local Open Scope byte_scope.

(** C1. When the read deadline passes before any byte arrives, the pipeline
    should fail with the timeout of the ParseState at expiry (NoDataYet gives
    NoDataTimeout, InHeaders gives HeadersTimeout, ...) and never with a
    generic timeout.  The code: with no byte at all, and with a start line
    received and the parser in kHeader, the outcome is kRecvTimeout both
    times, not the error [detailed_error] gives for the state. *)
Theorem deadline_reports_generic_timeout :
  let no_data := scripted_run [] 32 [io_deadline] in
  let in_headers :=
    scripted_run [(16, ec_http1 kNeedMore, kHeader)] 32
      [io_read 0 0 ["G"; "E"; "T"; " "; "/"; " "; "H"; "T"; "T"; "P"; "/"; "1";
                    "."; "1"; x0d; x0a];
       io_deadline] in
  outcome no_data = Some (set_error (ec_http1 kRecvTimeout))
  /\ State (parser (final_state no_data)) = kNothingYet
  /\ detailed_error kNothingYet = kRecvRequestTimeoutWithNothing
  /\ outcome in_headers = Some (set_error (ec_http1 kRecvTimeout))
  /\ State (parser (final_state in_headers)) = kHeader
  /\ detailed_error kHeader = kRecvRequestHeadersTimeout.
Proof. vm_compute. repeat split. Qed.

(** C2. Once the parser has reached Completed the loop should exit and no
    further read or parser call should occur.  The code: the parser completes
    the message in the first call and leaves no error; [check_parse_done]
    answers [false], a second read is started, its bytes go to the parser
    again, and a third read is outstanding. *)
Theorem loop_reads_again_after_completed :
  let sc := [(1, ec_default, kCompleted); (0, ec_default, kCompleted)] in
  let first := scripted_run sc 4 [io_read 0 0 ["A"]] in
  let second := scripted_run sc 4 [io_read 0 0 ["A"]; io_read 0 0 ["B"]] in
  check_parse_done ec_default = false
  /\ State (parser (final_state first)) = kCompleted
  /\ outcome first = None /\ reads_started first = 2%nat
  /\ outcome second = None /\ reads_started second = 3%nat
  /\ length (texts (parser (final_state second))) = 2%nat.
Proof. vm_compute. repeat split. Qed.

(** C3. Each parser call should operate on exactly the bytes at offsets
    [0, unparsed_len) of the buffer.  The code: after a read of the three
    bytes GET into a buffer of eight, unparsed_size is 3 and the parser is
    handed all eight bytes of the buffer. *)
Theorem parser_is_handed_the_whole_buffer :
  let r := scripted_run [] 8 [io_read 0 0 ["G"; "E"; "T"]] in
  unparsed_size (final_state r) = 3
  /\ texts (parser (final_state r))
     = [["G"; "E"; "T"; x00; x00; x00; x00; x00]]
  /\ texts (parser (final_state r))
     <> [take (Z.to_nat (unparsed_size (final_state r))) (buffer (final_state r))].
Proof. vm_compute. repeat split. discriminate. Qed.

(** The reads of one run all go to the front of the buffer: the second chunk
    of a message lands on the first, and what the parser is handed after the
    two chunks GE and T is not what it is handed after the one chunk GET. *)
Example chunked_reads_overwrite_the_front :
  let chunked := scripted_run [] 8 [io_read 0 0 ["G"; "E"]; io_read 0 0 ["T"]] in
  let whole := scripted_run [] 8 [io_read 0 0 ["G"; "E"; "T"]] in
  texts (parser (final_state chunked))
  = [["G"; "E"; x00; x00; x00; x00; x00; x00];
     ["T"; "E"; x00; x00; x00; x00; x00; x00]]
  /\ texts (parser (final_state whole))
     = [["G"; "E"; "T"; x00; x00; x00; x00; x00]]
  /\ unparsed_size (final_state chunked) = unparsed_size (final_state whole).
Proof. vm_compute. repeat split. Qed.

(** C4. remaining_budget should never go up during a session, and after the
    reads it should be the initial budget minus the elapsed times.  The code:
    with 120 seconds remaining, a read that takes five seconds leaves 125. *)
Theorem slow_read_raises_remaining_time :
  let state := scripted_state [] [x00; x00; x00; x00] 0 120 in
  let state' := update_state nanoseconds 1000000000 6000000000 3 state in
  remaining_time state = 120 /\ remaining_time state' = 125
  /\ remaining_time state < remaining_time state'.
Proof. vm_compute. repeat split. Qed.

(** C5. A read of n > 0 bytes should set first_byte_time if unset, update
    last_byte_time, add the non-negative elapsed time to Metrics.elapsed,
    subtract it from remaining_budget and add n to bytes_total and to
    unparsed_len.  The code: for a read of three bytes that starts at second 1
    and stops at second 6 the time points and the counts are as stated, but
    the elapsed time is taken as start - stop: -5 seconds are added to
    Metrics.elapsed, and the remaining time goes from 120 to 125. *)
Theorem slow_read_elapsed_is_negative :
  let state := scripted_state [] [x00; x00; x00; x00] 0 120 in
  let state' := update_state nanoseconds 1000000000 6000000000 3 state in
  time_first (metric state') = 1000000000
  /\ time_last (metric state') = 6000000000
  /\ size_total (metric state') = 3
  /\ unparsed_size state' = 3
  /\ time_elapsed (metric state') = -5
  /\ remaining_time state' = 125.
Proof. vm_compute. repeat split. Qed.

(** C6. After a parser call that consumes k bytes and wants more data,
    unparsed_len should go down by k, also when k = unparsed_len, which
    leaves 0.  The code: with three unparsed bytes of which the parser
    consumes all three, unparsed_size is still 3 afterwards, and the consumed
    bytes are still at the front of the buffer. *)
Theorem consumed_window_stays_unparsed :
  let state :=
    scripted_state [(3, ec_http1 kNeedMore, kStartLine)] ["A"; "B"; "C"; x00] 3 120 in
  let state' := snd (parse_request copy_all state) in
  fst (parse_request copy_all state) = set_value false
  /\ unparsed_size state' = 3
  /\ buffer state' = ["A"; "B"; "C"; x00].
Proof. vm_compute. repeat split. Qed.

(** With two of the three bytes consumed the third is moved to the front. *)
Example partly_consumed_window_is_compacted :
  let state :=
    scripted_state [(2, ec_http1 kNeedMore, kStartLine)] ["A"; "B"; "C"; x00] 3 120 in
  let state' := snd (parse_request copy_all state) in
  unparsed_size state' = 1 /\ buffer state' = ["C"; "B"; "C"; x00].
Proof. vm_compute. repeat split. Qed.

(** C7, as stated, fails: a cancelled read gives the outcome of a timed-out
    read, the error kRecvTimeout, and no outcome of its own. *)
Lemma cancelled_read_reported_as_timeout :
  outcome (scripted_run [] 8 [io_cancel]) = Some (set_error (ec_http1 kRecvTimeout))
  /\ scripted_run [] 8 [io_cancel] = scripted_run [] 8 [io_deadline].
Proof. vm_compute. repeat split. Qed.


(** ** Instances of the theorems with hypotheses *)

Lemma cancelled_read_fails_without_request_witness :
  let pre := [io_read 0 0 ["G"; "E"]] in
  exists e,
    scripted_run [] 8 (pre ++ [io_cancel])
    = (Some (set_error e),
       final_state (scripted_run [] 8 pre), reads_started (scripted_run [] 8 pre))
    /\ e <> ec_http1 kEndOfStream.
Proof.
  unfold scripted_run.
  apply (cancelled_read_fails_without_request nanoseconds copy_all 8
           (scripted_init []) tt sample_option [io_read 0 0 ["G"; "E"]] []).
  reflexivity.
Defined.

Lemma sub_second_reads_cost_nothing_witness :
  let state := scripted_state [] [x00; x00; x00; x00] 0 120 in
  let reads := [(1000000000, 1999999999, 5); (3000000000, 3000000001, 7)] in
  time_elapsed (metric (update_state_all nanoseconds reads state))
  = time_elapsed (metric state)
  /\ remaining_time (update_state_all nanoseconds reads state) = remaining_time state.
Proof.
  apply (proj2 (sub_second_reads_cost_nothing (P:=scripted) (R:=unit) nanoseconds
                  ltac:(reflexivity)
                  (scripted_state [] [x00; x00; x00; x00] 0 120)
                  ltac:(unfold in_i64; simpl; lia)
                  ltac:(unfold in_i64; simpl; lia))).
  repeat constructor; unfold in_i64, nanoseconds; simpl; lia.
Defined.

(** * Further properties of the code *)

Local Close Scope byte_scope.

(** ** detailed_error and finished *)

(** X1. detailed_error gives kSuccess for kCompleted and for no other state;
    every other state gets one of the four timeout errors, and two states get
    the same error only when they are equal or are the two start-line states
    kStartLine and kExpectingNewline. *)
Theorem detailed_error_classes (s s' : MessageState) :
  (detailed_error s = kSuccess <-> s = kCompleted)
  /\ (s <> kCompleted ->
      In (detailed_error s)
        [kRecvRequestTimeoutWithNothing; kRecvRequestLineTimeout;
         kRecvRequestHeadersTimeout; kRecvRequestBodyTimeout])
  /\ (detailed_error s = detailed_error s' ->
      s = s' \/ (In s [kStartLine; kExpectingNewline]
                 /\ In s' [kStartLine; kExpectingNewline])).
Proof.
  split; [|split].
  - split; [by destruct s | by intros ->].
  - destruct s; simpl; intros Hs; try tauto.
  - destruct s, s'; simpl; intros Heq; try discriminate; tauto.
Qed.

Section Finished.

Context {P R : Type} `{!MessageParser P R}.

(** X2. finished hands out the request and the metrics of the state exactly
    when the parser is at kCompleted; in every other state it fails, with an
    error code that is set (it is never the success code) and that is made
    from the parser state alone; it never completes with stopped. *)
Theorem finished_succeeds_only_when_completed (state : recv_state P R) :
  (finished state = set_value (request state, metric state)
   <-> State (parser state) = kCompleted)
  /\ (State (parser state) <> kCompleted ->
      finished state
      = set_error (ec_http1 (detailed_error (State (parser state))))
      /\ ec_bool (ec_http1 (detailed_error (State (parser state)))) = true)
  /\ finished state <> set_stopped.
Proof.
  unfold finished.
  destruct (State (parser state)) eqn:Hs; simpl; repeat split;
    try done; try (intros; discriminate).
Qed.

(** ** initialize_state *)

(** X3. After initialize_state the remaining time is the unlimited sentinel
    exactly when both configured timeouts are unlimited: a finite keep-alive
    or, without one, a finite total timeout always bounds the session.
    Running initialize_state again changes nothing. *)
Theorem initialize_state_unlimited_iff (state : recv_state P R) (opt : recv_option) :
  (remaining_time (initialize_state state opt) = unlimited_timeout
   <-> keepalive_timeout opt = unlimited_timeout
       /\ total_timeout opt = unlimited_timeout)
  /\ initialize_state (initialize_state state opt) opt = initialize_state state opt.
Proof.
  unfold initialize_state.
  destruct (keepalive_timeout opt =? unlimited_timeout) eqn:Hk; simpl.
  - apply Z.eqb_eq in Hk. split; [|done]. split; [by intros ->|by intros [_ ->]].
  - apply Z.eqb_neq in Hk. split; [|done]. split; [done|by intros [? _]].
Qed.

(** ** update_state over a series of reads *)

Variable ticks_per_second : Z.

Lemma wrap_u64_of_i64 (z : Z) : wrap_u64 (wrap_i64 z) = wrap_u64 z.
Proof.
  unfold wrap_u64, wrap_i64. rewrite Zminus_mod_idemp_l. f_equal. lia.
Qed.

Lemma wrap_u64_add (a b a' b' : Z) :
  wrap_u64 a = wrap_u64 a' -> wrap_u64 b = wrap_u64 b' ->
  wrap_u64 (a + b) = wrap_u64 (a' + b').
Proof.
  unfold wrap_u64. intros Ha Hb.
  rewrite (Zplus_mod a b), (Zplus_mod a' b'), Ha, Hb. done.
Qed.

Lemma wrap_u64_in_u64 (z : Z) : in_u64 (wrap_u64 z).
Proof. unfold in_u64, wrap_u64. apply Z.mod_pos_bound. lia. Qed.

(** What update_state adds to Metrics.elapsed it takes from the remaining
    time: the sum of the two is the same after the read, modulo 2^64. *)
Lemma update_state_conserves_time (start stop recv_size : Z) (state : recv_state P R) :
  let state' := update_state ticks_per_second start stop recv_size state in
  wrap_u64 (time_elapsed (metric state') + remaining_time state')
  = wrap_u64 (time_elapsed (metric state) + remaining_time state).
Proof.
  simpl.
  set (e := duration_cast_seconds ticks_per_second (wrap_i64 (start - stop))).
  erewrite wrap_u64_add; [|apply wrap_u64_of_i64|apply wrap_u64_of_i64].
  f_equal. lia.
Qed.

(** X4. Through any series of successful reads the first time point of the
    metrics is the start of the earliest read whose start is not tick zero (a
    start at tick zero counts as "not set"), once set it is never changed, and
    the last time point is the stop of the latest read. *)
Theorem update_state_all_time_points (reads : list (Z * Z * Z))
  (state : recv_state P R) :
  time_first (metric (update_state_all ticks_per_second reads state))
  = first_set (time_first (metric state) :: map (fun r => fst (fst r)) reads)
  /\ (time_first (metric state) <> 0 ->
      time_first (metric (update_state_all ticks_per_second reads state))
      = time_first (metric state))
  /\ (forall reads' start stop recv_size,
         reads = reads' ++ [(start, stop, recv_size)] ->
         time_last (metric (update_state_all ticks_per_second reads state)) = stop).
Proof.
  assert (forall reads (state : recv_state P R),
             time_first (metric (update_state_all ticks_per_second reads state))
             = first_set (time_first (metric state)
                            :: map (fun r => fst (fst r)) reads)) as Hfirst.
  { clear. intros reads. induction reads as [|[[start stop] n] reads IH];
      intros state.
    - simpl. by destruct (time_first (metric state) =? 0) eqn:Hz;
        [apply Z.eqb_eq in Hz|].
    - unfold update_state_all in *. cbn [fold_left]. rewrite IH. simpl.
      destruct (time_first (metric state) =? 0) eqn:Hz; simpl.
      + done.
      + by rewrite Hz. }
  split; [apply Hfirst|split].
  - intros Hset. rewrite Hfirst. simpl.
    by destruct (time_first (metric state) =? 0) eqn:Hz;
      [apply Z.eqb_eq in Hz|].
  - intros reads' start stop recv_size ->.
    unfold update_state_all. by rewrite fold_left_app.
Qed.

End Finished.

(** ** parse_request *)

Section Compaction.

Context {P R : Type} `{!MessageParser P R}.
Variable CopyArray : list byte -> list byte.

Local Abbreviation parse := (parse_request (P:=P) (R:=R) CopyArray).

Lemma memcpy_in_place (buf : list byte) (n : nat) :
  (n <= length buf)%nat -> memcpy buf 0 0 n = buf.
Proof.
  intros Hlen. apply list_eq. intros j.
  pose proof (memcpy_lookup n buf 0 0 j) as Hcopy. simpl in Hcopy.
  rewrite Hcopy by lia. case_decide; [f_equal; lia | done].
Qed.

Lemma parse_request_buffer_length (state : recv_state P R) :
  length (buffer (snd (parse state))) = length (buffer state).
Proof.
  unfold parse_request.
  destruct (Parse _ _ _) as [[[p' r'] k] ec].
  destruct (ec_is ec kNeedMore && (k <? unparsed_size state)); simpl; [|done].
  apply memcpy_length.
Qed.

(** X5. On a state whose unparsed bytes lie inside the buffer, and for a
    parser that reports a consumed size that is not negative, parse_request
    never makes the count of unparsed bytes larger and keeps it inside the
    buffer; unless the parser asks for more data after consuming fewer bytes
    than are unparsed, it leaves the buffer and the count untouched; and it
    always stores the parser and the request the parser call returned. *)
Theorem parse_request_never_grows_window (state : recv_state P R)
  (p' : P) (r' : R) (k : Z) (ec : error_code) :
  Parse (parser state) (request state) (CopyArray (buffer state)) = (p', r', k, ec) ->
  in_u64 (unparsed_size state) ->
  unparsed_size state <= Z.of_nat (length (buffer state)) ->
  0 <= k ->
  0 <= unparsed_size (snd (parse state)) <= unparsed_size state
  /\ unparsed_size (snd (parse state))
     <= Z.of_nat (length (buffer (snd (parse state))))
  /\ (ec_is ec kNeedMore = false \/ unparsed_size state <= k ->
      buffer (snd (parse state)) = buffer state
      /\ unparsed_size (snd (parse state)) = unparsed_size state)
  /\ parser (snd (parse state)) = p'
  /\ request (snd (parse state)) = r'.
Proof.
  intros Hparse Hu Hin Hk.
  assert (0 <= unparsed_size (snd (parse state)) <= unparsed_size state) as Hle.
  { unfold parse_request. rewrite Hparse. unfold in_u64 in Hu.
    destruct (ec_is ec kNeedMore && (k <? unparsed_size state)) eqn:Hguard;
      simpl; [|lia].
    apply andb_true_iff in Hguard as [_ Hlt]. apply Z.ltb_lt in Hlt.
    rewrite wrap_u64_id by (unfold in_u64; lia). lia. }
  split; [done|]. split.
  { rewrite parse_request_buffer_length. lia. }
  unfold parse_request. rewrite Hparse.
  destruct (ec_is ec kNeedMore && (k <? unparsed_size state)) eqn:Hguard;
    simpl; [|by repeat split].
  apply andb_true_iff in Hguard as [Hmore Hlt]. apply Z.ltb_lt in Hlt.
  split; [|done]. intros [Hne | Hge]; [congruence | lia].
Qed.

(** X6. When the parser asks for more data after consuming k bytes, fewer
    than the unparsed ones, parse_request takes k off the count and moves the
    unconsumed bytes to the front of the buffer, byte for byte and in order;
    the bytes behind them keep their old values, and with k = 0 the buffer is
    not changed at all. *)
Theorem compaction_moves_unconsumed_bytes (state : recv_state P R)
  (p' : P) (r' : R) (k : Z) :
  Parse (parser state) (request state) (CopyArray (buffer state))
  = (p', r', k, ec_http1 kNeedMore) ->
  0 <= k < unparsed_size state ->
  unparsed_size state <= Z.of_nat (length (buffer state)) ->
  in_u64 (unparsed_size state) ->
  unparsed_size (snd (parse state)) = unparsed_size state - k
  /\ take (Z.to_nat (unparsed_size state - k)) (buffer (snd (parse state)))
     = drop (Z.to_nat k) (take (Z.to_nat (unparsed_size state)) (buffer state))
  /\ drop (Z.to_nat (unparsed_size state - k)) (buffer (snd (parse state)))
     = drop (Z.to_nat (unparsed_size state - k)) (buffer state)
  /\ (k = 0 -> buffer (snd (parse state)) = buffer state).
Proof.
  intros Hparse Hk Hlen Hu.
  destruct (parse_request_compacts CopyArray state p' r' k Hparse Hk Hlen Hu)
    as (_ & Hsize & _ & Hfront).
  split; [done|]. split; [by rewrite <- Hsize|].
  unfold parse_request. rewrite Hparse.
  assert ((k <? unparsed_size state) = true) as -> by (apply Z.ltb_lt; lia).
  rewrite wrap_u64_id by (unfold in_u64 in *; lia). simpl.
  split.
  - apply list_eq. intros j. rewrite !lookup_drop.
    apply memcpy_behind; lia.
  - intros ->. simpl. apply memcpy_in_place. lia.
Qed.

(** X16. After a parser call, parse_request tells the loop to go on exactly
    when the call left no error (the default code, kSuccess or a zero code of
    another category) or asked for more data; with any other code it tells
    the loop to stop, and it never completes with an error or stopped
    itself. *)
Theorem parse_request_continues_iff (state : recv_state P R)
  (p' : P) (r' : R) (k : Z) (ec : error_code) :
  Parse (parser state) (request state) (CopyArray (buffer state)) = (p', r', k, ec) ->
  (fst (parse state) = set_value false
   <-> ec = ec_default \/ ec = ec_http1 kSuccess \/ ec = ec_http1 kNeedMore
       \/ ec = ec_other 0)
  /\ (fst (parse state) = set_value true \/ fst (parse state) = set_value false).
Proof.
  intros Hparse. unfold parse_request. rewrite Hparse. simpl. split.
  - destruct ec as [|e|v]; simpl.
    + split; auto.
    + destruct e; simpl; split; try done; auto;
        intros [?|[?|[?|?]]]; done.
    + unfold check_parse_done. simpl. rewrite andb_true_r.
      destruct (v =? 0) eqn:Hv; simpl.
      * apply Z.eqb_eq in Hv as ->. split; auto.
      * apply Z.eqb_neq in Hv. split; [done|].
        intros [?|[?|[?|?]]]; try done. congruence.
  - destruct (check_parse_done ec); auto.
Qed.

End Compaction.

(** ** Runs of recv_request *)

Section Runs.

Context {P R : Type} `{!MessageParser P R}.
Variable ticks_per_second : Z.
Variable CopyArray : list byte -> list byte.
Variable capacity : nat.
Variable parser_init : P.
Variable request_init : R.
Variable default_option : recv_option.

Local Abbreviation parse := (parse_request (P:=P) (R:=R) CopyArray).
Local Abbreviation once := (recv_once (P:=P) (R:=R) ticks_per_second CopyArray).
Local Abbreviation loop := (repeat_effect_until (P:=P) (R:=R) ticks_per_second CopyArray).
Local Abbreviation recv :=
  (recv_request (P:=P) (R:=R) ticks_per_second CopyArray capacity parser_init
     request_init default_option).
Local Abbreviation state0 :=
  (initialize_state (recv_state_init capacity parser_init request_init) default_option).
Local Abbreviation read_done := (after_read (P:=P) (R:=R) ticks_per_second).

(** One run of the repeated sender either fails and leaves the state as it
    is, or stores bytes and goes on to the parser. *)
Lemma recv_once_cases (window : span) (ev : io_event) (state : recv_state P R) :
  (exists e, once window ev state = (set_error e, state))
  \/ (exists start stop data,
         ev = io_read start stop data
         /\ take (count window) data <> []
         /\ once window ev state = parse (read_done window start stop data state)).
Proof.
  destruct ev as [start stop data|ec| |].
  - assert (take (count window) data = [] \/ take (count window) data <> [])
      as [Hnone | Hsome] by (destruct (take (count window) data); auto).
    + left. eexists. by apply recv_once_no_bytes.
    + right. exists start, stop, data. split; [done|]. split; [done|].
      by apply recv_once_bytes.
  - left. eexists. apply recv_once_fail.
  - left. eexists. apply recv_once_deadline.
  - left. eexists. apply recv_once_cancel.
Qed.

Lemma recv_once_not_stopped (window : span) (ev : io_event) (state : recv_state P R) :
  fst (once window ev state) <> set_stopped.
Proof.
  destruct (recv_once_cases window ev state)
    as [[e ->] | (start & stop & data & _ & _ & ->)]; [done|].
  destruct (parse_request_value CopyArray (read_done window start stop data state))
    as [b ->]. done.
Qed.

Lemma loop_not_stopped (window : span) (events : list io_event) :
  forall state : recv_state P R,
    fst (fst (loop window events state)) <> Some set_stopped.
Proof.
  induction events as [|ev events IH]; intros state; simpl; [done|].
  pose proof (recv_once_not_stopped window ev state) as Hns.
  destruct (once window ev state) as [[[]|e|] state1]; simpl in *; try done.
  specialize (IH state1). by destruct (loop window events state1) as [[c s] m].
Qed.

(** What every successful iteration keeps, the loop keeps. *)
Lemma loop_invariant (I : recv_state P R -> Prop) (window : span) :
  (forall state start stop data,
      I state -> take (count window) data <> [] ->
      I (snd (parse (read_done window start stop data state)))) ->
  forall events state, I state -> I (snd (fst (loop window events state))).
Proof.
  intros Hstep events.
  induction events as [|ev events IH]; intros state HI; [done|].
  simpl.
  destruct (recv_once_cases window ev state)
    as [[e ->] | (start & stop & data & _ & Hdata & ->)]; [done|].
  specialize (Hstep state start stop data HI Hdata).
  destruct (parse (read_done window start stop data state)) as [[[]|e|] state1];
    simpl in *; try done.
  specialize (IH state1 Hstep).
  by destruct (loop window events state1) as [[c s] m].
Qed.

Lemma recv_request_final_state (events : list io_event) :
  final_state (recv events)
  = snd (fst (loop (recv_buffer state0) events state0)).
Proof.
  unfold recv_request, final_state.
  destruct (loop _ events _) as [[c s] m].
  by destruct c as [[[]|e|]|].
Qed.

(** X7. Every completion of recv_request is a value or an error, never
    stopped.  A value is the request and the metrics of the final state, and
    the parser is then at kCompleted.  An error is kEndOfStream, kRecvTimeout,
    the error one of the reads reported, or the error detailed_error makes
    from the state of the parser, which is then not kCompleted. *)
Theorem recv_request_outcomes (events : list io_event)
  (c : completion (R * recv_metric)) (state : recv_state P R) (n : nat) :
  recv events = (Some c, state, n) ->
  (c = set_value (request state, metric state)
   /\ State (parser state) = kCompleted)
  \/ (exists e,
         c = set_error e
         /\ (e = ec_http1 kEndOfStream \/ e = ec_http1 kRecvTimeout
             \/ In (io_fail e) events
             \/ (State (parser state) <> kCompleted
                 /\ e = ec_http1 (detailed_error (State (parser state)))))).
Proof.
  unfold recv_request.
  pose proof (loop_not_stopped (recv_buffer state0) events state0) as Hns.
  destruct (loop _ events _) as [[c0 s] m] eqn:Hloop.
  destruct c0 as [[[]|e|]|]; intros Hrecv; simplify_eq.
  - unfold finished.
    destruct (State (parser state)) eqn:Hs; simpl;
      try (right; eexists; split; [done|]; right; right; right; by rewrite ?Hs);
      by left.
  - right. exists e. split; [done|].
    destruct (loop_failures _ _ _ _ _ _ _ _ Hloop) as [?|[?|?]]; auto.
Qed.

(** X9. An error that a read reports reaches the caller of recv_request as
    it is, whatever state the parser is in; the failed read leaves the state,
    with its metrics and its remaining time, as the reads before it left it,
    and the parser is not called. *)
Theorem read_error_reaches_caller (pre rest : list io_event) (ec : error_code)
  (state : recv_state P R) (n : nat) :
  recv pre = (None, state, n) ->
  recv (pre ++ io_fail ec :: rest) = (Some (set_error ec), state, n).
Proof.
  intros Hpre. apply recv_request_error.
  pose proof (recv_request_suspended _ _ _ _ _ _ _ _ _ Hpre) as Hloop.
  rewrite (loop_app _ _ _ _ _ _ _ _ Hloop).
  rewrite (loop_stops_at_error _ _ _ (io_fail ec) rest state state ec)
    by apply recv_once_fail.
  pose proof (loop_reads_positive ticks_per_second CopyArray
                (recv_buffer state0) pre state0) as Hpos.
  rewrite Hloop in Hpos. simpl in Hpos. do 2 f_equal. lia.
Qed.

(** X10. A read that completes with no bytes, as when the peer has closed
    the connection, ends recv_request with kEndOfStream whatever state the
    parser is in, also kCompleted; the state is left as the reads before it
    left it and the parser is not called. *)
Theorem closed_peer_ends_with_end_of_stream (pre rest : list io_event)
  (start stop : Z) (state : recv_state P R) (n : nat) :
  recv pre = (None, state, n) ->
  recv (pre ++ io_read start stop [] :: rest)
  = (Some (set_error (ec_http1 kEndOfStream)), state, n).
Proof.
  intros Hpre. apply recv_request_error.
  pose proof (recv_request_suspended _ _ _ _ _ _ _ _ _ Hpre) as Hloop.
  rewrite (loop_app _ _ _ _ _ _ _ _ Hloop).
  rewrite (loop_stops_at_error _ _ _ (io_read start stop []) rest state state
             (ec_http1 kEndOfStream))
    by (apply recv_once_no_bytes, take_nil).
  pose proof (loop_reads_positive ticks_per_second CopyArray
                (recv_buffer state0) pre state0) as Hpos.
  rewrite Hloop in Hpos. simpl in Hpos. do 2 f_equal. lia.
Qed.

Lemma recv_request_value (events : list io_event) (state : recv_state P R)
  (n : nat) :
  loop (recv_buffer state0) events state0 = (Some (set_value tt), state, n) ->
  recv events = (Some (finished state), state, n).
Proof. unfold recv_request. by intros ->. Qed.

(** X11. When the parser reports a parse error (an error code that is set
    and is not kNeedMore) and is not at kCompleted, recv_request ends and its
    error is the one detailed_error makes from the state the parser is in: the
    code the parser reported does not reach the caller. *)
Theorem parse_error_is_reported_by_state (pre rest : list io_event)
  (start stop : Z) (data : list byte) (state : recv_state P R) (n : nat)
  (p' : P) (r' : R) (k : Z) (ec : error_code) :
  recv pre = (None, state, n) ->
  take capacity data <> [] ->
  Parse
    (parser (read_done {| offset := 0; count := capacity |} start stop data state))
    (request (read_done {| offset := 0; count := capacity |} start stop data state))
    (CopyArray
       (buffer (read_done {| offset := 0; count := capacity |} start stop data state)))
  = (p', r', k, ec) ->
  ec_bool ec = true -> ec_is ec kNeedMore = false ->
  State p' <> kCompleted ->
  outcome (recv (pre ++ io_read start stop data :: rest))
  = Some (set_error (ec_http1 (detailed_error (State p'))))
  /\ reads_started (recv (pre ++ io_read start stop data :: rest)) = n.
Proof.
  intros Hpre Hdata Hparse Hset Hmore Hstate.
  pose proof (recv_request_suspended _ _ _ _ _ _ _ _ _ Hpre) as Hloop.
  pose proof (loop_reads_positive ticks_per_second CopyArray
                (recv_buffer state0) pre state0) as Hpos.
  rewrite Hloop in Hpos. simpl in Hpos.
  set (st1 := read_done {| offset := 0; count := capacity |} start stop data state)
    in *.
  set (st2 := {| buffer := buffer st1; unparsed_size := unparsed_size st1;
                 parser := p'; request := r';
                 metric := metric st1; remaining_time := remaining_time st1 |}).
  assert (parse st1 = (set_value true, st2)) as Hst2.
  { unfold parse_request. rewrite Hparse, Hmore. simpl.
    unfold check_parse_done. by rewrite Hset, Hmore. }
  assert (loop (recv_buffer state0) (pre ++ io_read start stop data :: rest) state0
          = (Some (set_value tt), st2, n)) as Hall.
  { rewrite (loop_app _ _ _ _ _ _ _ _ Hloop).
    rewrite (loop_stops_at_true _ _ _ (io_read start stop data) rest state st2).
    - do 2 f_equal. lia.
    - rewrite recv_request_window.
      rewrite recv_once_bytes by done. exact Hst2. }
  rewrite (recv_request_value _ _ _ Hall). unfold outcome, reads_started. simpl.
  split; [|done]. unfold finished. simpl.
  by destruct (State p').
Qed.

Lemma loop_counts (window : span) (events : list io_event) :
  forall (state state' : recv_state P R) (n : nat),
    loop window events state = (None, state', n) ->
    in_u64 (size_total (metric state)) ->
    size_total (metric state')
    = wrap_u64 (size_total (metric state) + bytes_stored (count window) events)
    /\ n = S (length events)
    /\ Forall (fun ev => 0 < stored_bytes (count window) ev
                         <= Z.of_nat (count window)) events.
Proof.
  induction events as [|ev events IH]; intros state state' n Hloop Hu.
  - simpl in Hloop. simplify_eq. simpl. rewrite Z.add_0_r.
    by rewrite wrap_u64_id.
  - simpl in Hloop.
    destruct (recv_once_cases window ev state)
      as [[e He] | (start & stop & data & -> & Hdata & Hev)].
    + rewrite He in Hloop. simplify_eq.
    + rewrite Hev in Hloop.
      pose proof (parse_request_keeps_metric CopyArray
                    (read_done window start stop data state)) as [Hmetric _].
      destruct (parse (read_done window start stop data state))
        as [[[]|e|] state1]; try by simplify_eq.
      destruct (loop window events state1) as [[c s] m] eqn:Hrest.
      simplify_eq. simpl in Hmetric.
      destruct (IH _ _ _ Hrest) as (Hsize & -> & Hall).
      { rewrite Hmetric. simpl. apply wrap_u64_in_u64. }
      split; [|split; [done|]].
      * rewrite Hsize, Hmetric. simpl.
        unfold wrap_u64. rewrite Zplus_mod_idemp_l. f_equal. lia.
      * constructor; [|done]. simpl.
        pose proof (firstn_le_length (count window) data).
        destruct (take (count window) data); [done|]. simpl in *. lia.
Qed.

(** X13. While recv_request is suspended in a read, every read before has
    stored bytes, at least one and at most the capacity of the buffer; the
    total size of the metrics is the number of bytes those reads stored
    (modulo 2^64), and one read has been started per completed read plus the
    one that is outstanding. *)
Theorem suspended_run_counts (events : list io_event) (state : recv_state P R)
  (n : nat) :
  recv events = (None, state, n) ->
  size_total (metric state) = wrap_u64 (bytes_stored capacity events)
  /\ n = S (length events)
  /\ Forall (fun ev => 0 < stored_bytes capacity ev <= Z.of_nat capacity) events.
Proof.
  intros Hrecv.
  pose proof (recv_request_suspended _ _ _ _ _ _ _ _ _ Hrecv) as Hloop.
  rewrite recv_request_window in Hloop.
  assert (size_total (metric state0) = 0) as Hzero
      by (unfold initialize_state; by destruct (negb _)).
  destruct (loop_counts _ _ _ _ _ Hloop) as (Hsize & Hn & Hall).
  { rewrite Hzero. unfold in_u64. lia. }
  rewrite Hzero in Hsize. done.
Qed.

(** X14. Through every run of recv_request, what has been added to the
    elapsed time of the metrics has been taken from the remaining time: the
    sum of the two is, modulo 2^64, the remaining time initialize_state set. *)
Theorem recv_request_conserves_time (events : list io_event) :
  wrap_u64 (time_elapsed (metric (final_state (recv events)))
            + remaining_time (final_state (recv events)))
  = wrap_u64 (remaining_time state0).
Proof.
  rewrite recv_request_final_state.
  apply (loop_invariant
           (fun st => wrap_u64 (time_elapsed (metric st) + remaining_time st)
                      = wrap_u64 (remaining_time state0))).
  - intros state start stop data Hsum _.
    destruct (parse_request_keeps_metric CopyArray
                (read_done (recv_buffer state0) start stop data state))
      as [-> ->].
    unfold after_read. rewrite update_state_conserves_time. exact Hsum.
  - f_equal. unfold initialize_state. by destruct (negb _).
Qed.

(** When the loop ends with a value, its last iteration stored bytes and the
    parser then made parse_request answer [true]. *)
Lemma loop_value_needs_true (window : span) (events : list io_event) :
  forall (state state' : recv_state P R) (n : nat),
    loop window events state = (Some (set_value tt), state', n) ->
    exists pre start stop data rest state_pre,
      events = pre ++ io_read start stop data :: rest
      /\ loop window pre state = (None, state_pre, n)
      /\ take (count window) data <> []
      /\ parse (read_done window start stop data state_pre) = (set_value true, state').
Proof.
  induction events as [|ev events IH]; intros state state' n Hloop; [done|].
  simpl in Hloop.
  destruct (recv_once_cases window ev state)
    as [[e He] | (start & stop & data & -> & Hdata & Hev)].
  - rewrite He in Hloop. simplify_eq.
  - rewrite Hev in Hloop.
    destruct (parse (read_done window start stop data state))
      as [[[]|e|] state1] eqn:Hparse; try by simplify_eq.
    + simplify_eq. by exists [], start, stop, data, events, state.
    + destruct (loop window events state1) as [[c s] m] eqn:Hrest.
      simplify_eq.
      destruct (IH _ _ _ Hrest)
        as (pre & start' & stop' & data' & rest & st_pre & -> & Hpre & Hd & Hp).
      exists (io_read start stop data :: pre), start', stop', data', rest, st_pre.
      split; [done|]. split; [|done].
      assert (once window (io_read start stop data) state = (set_value false, state1))
        as Hfalse by (by rewrite Hev).
      rewrite (loop_repeats_at_false _ _ _ _ pre _ _ Hfalse). by rewrite Hpre.
Qed.

(** X17. recv_request hands out a request only after a parser call that
    reported an error: when it completes with a value, the last read stored
    bytes, and the parser call on them left an error code that is set and is
    not kNeedMore, with the parser at kCompleted afterwards. *)
Theorem success_needs_parser_error (events : list io_event)
  (v : R * recv_metric) (state : recv_state P R) (n : nat) :
  recv events = (Some (set_value v), state, n) ->
  exists pre start stop data rest state_pre p' r' k ec,
    events = pre ++ io_read start stop data :: rest
    /\ recv pre = (None, state_pre, n)
    /\ Parse
         (parser (read_done {| offset := 0; count := capacity |} start stop data state_pre))
         (request (read_done {| offset := 0; count := capacity |} start stop data state_pre))
         (CopyArray
            (buffer (read_done {| offset := 0; count := capacity |} start stop data
                       state_pre)))
       = (p', r', k, ec)
    /\ ec_bool ec = true /\ ec_is ec kNeedMore = false
    /\ State p' = kCompleted
    /\ v = (r', metric state).
Proof.
  intros Hrecv.
  destruct (recv_request_outcomes _ _ _ _ Hrecv) as [[Hv Hs] | (e & He & _)];
    [|done].
  unfold recv_request in Hrecv.
  pose proof (loop_not_stopped (recv_buffer state0) events state0) as Hns.
  destruct (loop _ events _) as [[c0 s] m] eqn:Hloop.
  destruct c0 as [[[]|e|]|]; simplify_eq.
  - destruct (loop_value_needs_true _ _ _ _ _ Hloop)
      as (pre & start & stop & data & rest & st_pre & -> & Hpre & Hd & Hp).
    rewrite recv_request_window in Hp, Hd.
    destruct (Parse
                (parser (read_done {| offset := 0; count := capacity |} start stop
                           data st_pre))
                (request (read_done {| offset := 0; count := capacity |} start stop
                            data st_pre))
                (CopyArray
                   (buffer (read_done {| offset := 0; count := capacity |} start
                              stop data st_pre))))
      as [[[p' r'] k] ec] eqn:Hparse.
    exists pre, start, stop, data, rest, st_pre, p', r', k, ec.
    unfold parse_request in Hp. rewrite Hparse in Hp.
    assert (check_parse_done ec = true) as Hdone by (by simplify_eq).
    apply check_parse_done_true in Hdone as [Hset Hmore].
    rewrite Hmore in Hp. simpl in Hp.
    split; [done|]. split.
    { unfold recv_request. by rewrite Hpre. }
    split; [done|]. split; [done|]. split; [done|].
    simplify_eq. simpl in *. done.
Qed.

(** *** A run whose write window is used up *)






End Runs.

(** ** Instances of the further properties *)

Local Open Scope byte_scope.

Lemma parse_request_never_grows_window_witness :
  let state :=
    scripted_state [(1, ec_http1 kNeedMore, kStartLine)] ["A"; "B"; "C"; x00] 3 120 in
  0 <= unparsed_size (snd (parse_request copy_all state)) <= unparsed_size state.
Proof.
  refine (proj1 (parse_request_never_grows_window copy_all
                   (scripted_state [(1, ec_http1 kNeedMore, kStartLine)]
                      ["A"; "B"; "C"; x00] 3 120)
                   _ _ 1 (ec_http1 kNeedMore) eq_refl _ _ _)).
  - unfold in_u64. simpl. lia.
  - simpl. lia.
  - lia.
Defined.

Lemma compaction_moves_unconsumed_bytes_witness :
  let state :=
    scripted_state [(1, ec_http1 kNeedMore, kStartLine)] ["A"; "B"; "C"; x00] 3 120 in
  unparsed_size (snd (parse_request copy_all state)) = unparsed_size state - 1.
Proof.
  refine (proj1 (compaction_moves_unconsumed_bytes copy_all
                   (scripted_state [(1, ec_http1 kNeedMore, kStartLine)]
                      ["A"; "B"; "C"; x00] 3 120)
                   _ _ 1 eq_refl _ _ _)).
  - simpl. lia.
  - simpl. lia.
  - unfold in_u64. simpl. lia.
Defined.

Lemma parse_request_continues_iff_witness :
  let state := scripted_state [(1, ec_default, kCompleted)] ["A"; x00] 1 120 in
  fst (parse_request copy_all state) = set_value false.
Proof.
  refine (proj2 (proj1 (parse_request_continues_iff copy_all
                          (scripted_state [(1, ec_default, kCompleted)] ["A"; x00] 1 120)
                          _ _ 1 ec_default eq_refl)) _).
  by left.
Defined.

Lemma recv_request_outcomes_witness :
  let r := scripted_run [] 8 [io_fail (ec_other 104)] in
  (@set_error (unit * recv_metric) (ec_other 104)
   = set_value (request (final_state r), metric (final_state r))
   /\ State (parser (final_state r)) = kCompleted)
  \/ (exists e,
         @set_error (unit * recv_metric) (ec_other 104) = set_error e
         /\ (e = ec_http1 kEndOfStream \/ e = ec_http1 kRecvTimeout
             \/ In (io_fail e) [io_fail (ec_other 104)]
             \/ (State (parser (final_state r)) <> kCompleted
                 /\ e = ec_http1 (detailed_error (State (parser (final_state r))))))).
Proof.
  apply (recv_request_outcomes nanoseconds copy_all 8 (scripted_init []) tt
           sample_option [io_fail (ec_other 104)] (set_error (ec_other 104))
           (final_state (scripted_run [] 8 [io_fail (ec_other 104)])) 1%nat).
  reflexivity.
Defined.

Lemma read_error_reaches_caller_witness :
  let pre := [io_read 0 0 ["G"]] in
  scripted_run [] 8 (pre ++ [io_fail (ec_other 104)])
  = (Some (set_error (ec_other 104)),
     final_state (scripted_run [] 8 pre), reads_started (scripted_run [] 8 pre)).
Proof.
  apply (read_error_reaches_caller nanoseconds copy_all 8 (scripted_init []) tt
           sample_option [io_read 0 0 ["G"]] [] (ec_other 104)).
  reflexivity.
Defined.

Lemma closed_peer_ends_with_end_of_stream_witness :
  let pre := [io_read 0 0 ["G"]] in
  scripted_run [] 8 (pre ++ [io_read 5 6 []])
  = (Some (set_error (ec_http1 kEndOfStream)),
     final_state (scripted_run [] 8 pre), reads_started (scripted_run [] 8 pre)).
Proof.
  apply (closed_peer_ends_with_end_of_stream nanoseconds copy_all 8
           (scripted_init []) tt sample_option [io_read 0 0 ["G"]] [] 5 6).
  reflexivity.
Defined.

Lemma parse_error_is_reported_by_state_witness :
  let r := scripted_run [(0, ec_other 7, kHeader)] 4 ([] ++ [io_read 0 0 ["X"]]) in
  outcome r = Some (set_error (ec_http1 (detailed_error kHeader)))
  /\ reads_started r = 1%nat.
Proof.
  exact (parse_error_is_reported_by_state nanoseconds copy_all 4
           (scripted_init [(0, ec_other 7, kHeader)]) tt sample_option
           [] [] 0 0 ["X"]
           (final_state (scripted_run [(0, ec_other 7, kHeader)] 4 [])) 1%nat
           {| script := []; current := kHeader; texts := [["X"; x00; x00; x00]] |}
           tt 0 (ec_other 7)
           eq_refl ltac:(discriminate) eq_refl eq_refl eq_refl ltac:(discriminate)).
Defined.

Lemma suspended_run_counts_witness :
  let events := [io_read 0 0 ["G"; "E"]; io_read 0 0 ["T"]] in
  size_total (metric (final_state (scripted_run [] 8 events)))
  = wrap_u64 (bytes_stored 8 events)
  /\ 3%nat = S (length events)
  /\ Forall (fun ev => 0 < stored_bytes 8 ev <= Z.of_nat 8) events.
Proof.
  apply (suspended_run_counts nanoseconds copy_all 8 (scripted_init []) tt
           sample_option [io_read 0 0 ["G"; "E"]; io_read 0 0 ["T"]]).
  reflexivity.
Defined.

Lemma success_needs_parser_error_witness :
  exists pre start stop data rest,
    [io_read 0 0 ["X"]] = pre ++ io_read start stop data :: rest.
Proof.
  assert (recv_request nanoseconds copy_all 4
            (scripted_init [(1, ec_other 7, kCompleted)]) tt sample_option
            [io_read 0 0 ["X"]]
          = (Some (set_value (tt, {| time_first := 0; time_last := 0;
                                     time_elapsed := 0; size_total := 1 |})),
             final_state (scripted_run [(1, ec_other 7, kCompleted)] 4
                            [io_read 0 0 ["X"]]),
             1%nat)) as Hrun by reflexivity.
  destruct (success_needs_parser_error _ _ _ _ _ _ _ _ _ _ Hrun)
    as (pre & start & stop & data & rest & _ & _ & _ & _ & _ & Hev & _).
  by exists pre, start, stop, data, rest.
Defined.

